(** * Moltbot Secure, agent core: a shallow embedding of [src/secure/agent.ts]

    The file has two parts, as the source has:
    - the conversation store ([createConversationStore]): a JavaScript
      [Map<number, Message[]>] whose values are mutable arrays.  Arrays are
      objects on a heap and the map holds references to them, so the model
      keeps a heap of arrays and a map from user ids to references;
    - the provider adapter ([createAgent] and the two [chat] closures):
      asynchronous code with one outbound provider call, a [try]/[catch]
      and an audit sink, modelled in a small state-and-rejection monad. *)

From Stdlib Require Import ZArith String Ascii.
From stdpp Require Import gmap strings list.

(** ** Messages *)

(** [role: "user" | "assistant"] *)
Inductive Role := user | assistant.

(** A message is a value: once created it is not changed. *)
Record Message := { role : Role; content : string }.

#[global] Instance Role_eq_dec : EqDecision Role.
Proof. solve_decision. Defined.

#[global] Instance Message_eq_dec : EqDecision Message.
Proof. solve_decision. Defined.

(** * Part 1: the conversation store *)

Module Store.

(** [const MAX_HISTORY = 20] *)
Definition MAX_HISTORY : nat := 20.

(** A reference to a JavaScript array living on the heap. *)
Abbreviation ref := nat.

(** The state captured by the closure returned by
    [createConversationStore]: the [conversations] map, together with the
    heap of arrays that its values (and the values handed out by [get])
    point into.  [next_ref] is the allocator.  User ids are the integer
    identifiers the callers pass as [number]. *)
Record Store := {
  arrays : gmap nat (list Message);
  next_ref : ref;
  conversations : gmap Z nat
}.

(** [const conversations = new Map<number, Message[]>()] *)
Definition createConversationStore : Store :=
  {| arrays := ∅; next_ref := 0; conversations := ∅ |}.

(** The array literal [[]]: a fresh, empty array. *)
Definition new_array (s : Store) : ref * Store :=
  (next_ref s,
   {| arrays := <[next_ref s := []]> (arrays s);
      next_ref := S (next_ref s);
      conversations := conversations s |}).

(** Reading the contents of an array through a reference. *)
Definition deref (r : ref) (s : Store) : list Message :=
  default [] (arrays s !! r).

(** [conversations.get(userId) || []]: an array is always truthy, so the
    right operand is taken exactly when the key is absent. *)
Definition get_or_new (userId : Z) (s : Store) : ref * Store :=
  match conversations s !! userId with
  | Some r => (r, s)
  | None => new_array s
  end.

(** [get(userId)]: returns the live reference. *)
Definition get (userId : Z) (s : Store) : ref * Store :=
  get_or_new userId s.

(** [history.push(message)]: in-place append. *)
Definition push (history : ref) (message : Message) (s : Store) : Store :=
  {| arrays := alter (λ l, l ++ [message]) history (arrays s);
     next_ref := next_ref s;
     conversations := conversations s |}.

(** [Array.prototype.splice(start, deleteCount)] on a list, for
    [0 <= start] and [0 <= deleteCount]: the elements kept. *)
Definition splice_list {A} (start deleteCount : nat) (l : list A) : list A :=
  take start l ++ drop (start + deleteCount) l.

(** [history.splice(start, deleteCount)]: in-place removal. *)
Definition splice (history : ref) (start deleteCount : nat) (s : Store) : Store :=
  {| arrays := alter (splice_list start deleteCount) history (arrays s);
     next_ref := next_ref s;
     conversations := conversations s |}.

(** [conversations.set(userId, history)] *)
Definition map_set (userId : Z) (history : ref) (s : Store) : Store :=
  {| arrays := arrays s;
     next_ref := next_ref s;
     conversations := <[userId := history]> (conversations s) |}.

(** [add(userId, message)] *)
Definition add (userId : Z) (message : Message) (s : Store) : Store :=
  let '(history, s1) := get_or_new userId s in
  let s2 := push history message s1 in
  let s3 :=
    if decide (MAX_HISTORY < length (deref history s2))
    then splice history 0 (length (deref history s2) - MAX_HISTORY) s2
    else s2 in
  map_set userId history s3.

(** [clear(userId)]: [conversations.delete(userId)] *)
Definition clear (userId : Z) (s : Store) : Store :=
  {| arrays := arrays s;
     next_ref := next_ref s;
     conversations := delete userId (conversations s) |}.

(** The sequence a caller reads through the reference [get] returns. *)
Definition get_seq (userId : Z) (s : Store) : list Message :=
  let '(r, s') := get userId s in deref r s'.

(** Calls on the store's public surface, and their execution in order. *)
Inductive Call :=
| CallGet (userId : Z)
| CallAdd (userId : Z) (message : Message)
| CallClear (userId : Z).

#[global] Instance Call_eq_dec : EqDecision Call.
Proof. solve_decision. Defined.

Definition step (s : Store) (c : Call) : Store :=
  match c with
  | CallGet u => snd (get u s)
  | CallAdd u m => add u m s
  | CallClear u => clear u s
  end.

Definition run (cs : list Call) (s : Store) : Store := foldl step s cs.

(** The messages passed to [add] for [userId] in a run of calls. *)
Fixpoint adds_for (userId : Z) (cs : list Call) : list Message :=
  match cs with
  | [] => []
  | CallAdd u m :: cs' =>
      if decide (u = userId) then m :: adds_for userId cs' else adds_for userId cs'
  | _ :: cs' => adds_for userId cs'
  end.

(** The last [n] elements of a list, in their original order. *)
Definition last_n {A} (n : nat) (l : list A) : list A := rev (take n (rev l)).

(** What [push] followed by the guarded [splice] of [add] leaves of an
    array that held [l ++ [message]] after the push. *)
Definition trimmed (l : list Message) : list Message :=
  if decide (MAX_HISTORY < length l)
  then splice_list 0 (length l - MAX_HISTORY) l
  else l.

(** The history the map holds for a user id, if it holds one. *)
Definition history_of (userId : Z) (s : Store) : option (list Message) :=
  r ← conversations s !! userId; arrays s !! r.

(** What holds of every store reached through the public surface:
    references in the map are allocated, allocated references are below
    the allocator, and no two user ids share an array. *)
Record wf (s : Store) : Prop := {
  wf_alloc : ∀ u r, conversations s !! u = Some r → is_Some (arrays s !! r);
  wf_below : ∀ r, is_Some (arrays s !! r) → r < next_ref s;
  wf_inj : ∀ u v r, conversations s !! u = Some r →
                    conversations s !! v = Some r → u = v
}.

(** The messages added for [userId] since it was last cleared, read off a
    run of calls from left to right. *)
Definition since_clear_step (userId : Z) (acc : list Message) (c : Call)
  : list Message :=
  match c with
  | CallGet _ => acc
  | CallAdd u m => if decide (u = userId) then acc ++ [m] else acc
  | CallClear u => if decide (u = userId) then [] else acc
  end.

Definition adds_since_clear (userId : Z) (cs : list Call) : list Message :=
  foldl (since_clear_step userId) [] cs.

End Store.

(** * Part 2: the provider adapter *)

Module Agent.

(** ** JavaScript values and operators the adapter relies on *)

(** Values a provider call may throw or reject with.  [JsError] is an
    object for which [err instanceof Error] holds, carrying its
    [message]; [JsOther] is any other value that is not an [Error]
    (a number, a plain object), carrying what [String] makes of it. *)
Inductive JsValue :=
| JsUndefined
| JsNull
| JsBoolean (b : bool)
| JsString (s : string)
| JsOther (stringified : string)
| JsError (message : string).

#[global] Instance JsValue_eq_dec : EqDecision JsValue.
Proof. solve_decision. Defined.

(** [err instanceof Error] *)
Definition instanceof_Error (err : JsValue) : bool :=
  match err with JsError _ => true | _ => false end.

(** [err.message], read only where [err instanceof Error] holds. *)
Definition error_message (err : JsValue) : string :=
  match err with JsError message => message | _ => "" end.

(** [String(v)] *)
Definition String_ (v : JsValue) : string :=
  match v with
  | JsUndefined => "undefined"
  | JsNull => "null"
  | JsBoolean true => "true"
  | JsBoolean false => "false"
  | JsString s => s
  | JsOther stringified => stringified
  | JsError "" => "Error"
  | JsError m => "Error: " +:+ m
  end.

(** [v || d] for an optional string [v]: [undefined], [null] and the empty
    string are falsy, every other string is truthy. *)
Definition or_else (v : option string) (d : string) : string :=
  match v with
  | Some (String c s) => String c s
  | Some EmptyString | None => d
  end.

(** The line feed character, [\n]. *)
Definition LF : string := String (ascii_of_nat 10) EmptyString.

(** [Array.prototype.join(separator)]: the elements left to right, the
    separator before every element but the first; [undefined] elements
    contribute the empty string. *)
Definition join (separator : string) (l : list (option string)) : string :=
  snd (foldl
         (λ '(k, R) element,
            (S k, (if k is 0 then R else R +:+ separator) +:+ default "" element))
         (0, "") l).

(** ** Data *)

Record Usage := { inputTokens : Z; outputTokens : Z }.

Record AgentResponse := { text : string; usage : option Usage }.

(** [provider: "anthropic" | "openai"] *)
Inductive Provider := anthropic | openai.

Definition provider_tag (p : Provider) : string :=
  match p with anthropic => "anthropic" | openai => "openai" end.

Definition role_tag (r : Role) : string :=
  match r with user => "user" | assistant => "assistant" end.

Definition DEFAULT_ANTHROPIC_MODEL : string := "claude-sonnet-4-20250514".
Definition DEFAULT_OPENAI_MODEL : string := "gpt-4o".

Definition DEFAULT_SYSTEM_PROMPT : string :=
"You are a helpful AI assistant running as a secure, self-hosted bot.

You are direct, concise, and helpful. You can:
- Answer questions and have conversations
- Analyze images and documents shared with you
- Help with coding and technical tasks
- Summarize content and extract information

When you receive webhook notifications, summarize them helpfully for the user.

Be security-conscious:
- Never reveal API keys, tokens, or secrets
- Don't execute commands that could harm the system
- Warn users about potentially dangerous operations".

(** Modelled from the spec: [SecureConfig] is declared in [./config.js],
    which is not among the sources; the adapter reads
    [{ai: {provider, apiKey, model?}}] from it. *)
Record AiConfig := { provider : string; apiKey : string; model : option string }.
Record SecureConfig := { ai : AiConfig }.

(** ** Provider wire shapes (the fields the adapter writes and reads) *)

Record MessageParam := { param_role : string; param_content : string }.

Record AnthropicRequest := {
  a_model : string;
  a_max_tokens : Z;
  a_system : string;
  a_messages : list MessageParam
}.

(** A content block of an Anthropic response, a union discriminated by
    its [type] field. *)
Inductive ContentBlock :=
| TextBlock (block_text : string)
| ToolUseBlock (id name input : string)
| ThinkingBlock (thinking signature : string).

Definition block_type (b : ContentBlock) : string :=
  match b with
  | TextBlock _ => "text"
  | ToolUseBlock _ _ _ => "tool_use"
  | ThinkingBlock _ _ => "thinking"
  end.

(** [block.text]: [undefined] on a block that has no such field. *)
Definition block_text_of (b : ContentBlock) : option string :=
  match b with TextBlock t => Some t | _ => None end.

Record AnthropicUsage := { input_tokens : Z; output_tokens : Z }.

Record AnthropicMessage := {
  a_content : list ContentBlock;
  a_usage : AnthropicUsage
}.

Record OpenAIRequest := {
  o_model : string;
  o_max_tokens : Z;
  o_messages : list MessageParam
}.

Record ChatCompletionMessage := { msg_content : option string }.
Record Choice := { message : option ChatCompletionMessage }.
Record CompletionUsage := { prompt_tokens : Z; completion_tokens : Z }.

Record ChatCompletion := {
  choices : list Choice;
  o_usage : option CompletionUsage
}.

(** ** The world the adapter runs in *)

(** How a promise settles. *)
Inductive Outcome (A : Type) :=
| Fulfilled (a : A)
| Rejected (err : JsValue).
Arguments Fulfilled {A} a.
Arguments Rejected {A} err.

(** An outbound provider call, as a mock transport captures it. *)
Inductive Outbound :=
| ToAnthropic (key : string) (request : AnthropicRequest)
| ToOpenAI (key : string) (request : OpenAIRequest).

(** The providers: how each answers a request, given the calls made so
    far. *)
Record Network := {
  anthropic_api : list Outbound → string → AnthropicRequest → Outcome AnthropicMessage;
  openai_api : list Outbound → string → OpenAIRequest → Outcome ChatCompletion
}.

Record AuditRecord := { error : string }.

(** A call received by the audit sink; [error] is the only method the
    adapter calls. *)
Inductive AuditCall := AuditError (record : AuditRecord).

Record World := {
  providers : Network;
  outbound : list Outbound;
  audit_log : list AuditCall
}.

(** An asynchronous computation: it may change the world, and its promise
    is fulfilled or rejected. *)
Definition Async (A : Type) : Type := World → Outcome A * World.

#[global] Instance Async_ret : MRet Async := λ A a w, (Fulfilled a, w).

#[global] Instance Async_bind : MBind Async := λ A B f m w,
  match m w with
  | (Fulfilled a, w') => f a w'
  | (Rejected err, w') => (Rejected err, w')
  end.

(** [throw err] *)
Definition throw {A} (err : JsValue) : Async A := λ w, (Rejected err, w).

(** [try { body } catch (err) { handler }] *)
Definition try_catch {A} (body : Async A) (handler : JsValue → Async A) : Async A :=
  λ w, match body w with
       | (Fulfilled a, w') => (Fulfilled a, w')
       | (Rejected err, w') => handler err w'
       end.

(** Modelled from the spec: [AuditLogger] is declared in [./audit.js],
    which is not among the sources; it is a sink exposing
    [error(record: {error: string})]. *)
Record AuditLogger := { audit_error : AuditRecord → Async unit }.

(** The sink that records every call it receives. *)
Definition audit_sink : AuditLogger :=
  {| audit_error := λ record w,
       (Fulfilled tt,
        {| providers := providers w;
           outbound := outbound w;
           audit_log := audit_log w ++ [AuditError record] |}) |}.

(** The SDK clients, built by [new Anthropic({apiKey})] and
    [new OpenAI({apiKey})]. *)
Record AnthropicClient := { anthropic_key : string }.
Record OpenAIClient := { openai_key : string }.

Definition sent (o : Outbound) (w : World) : World :=
  {| providers := providers w;
     outbound := outbound w ++ [o];
     audit_log := audit_log w |}.

(** [client.messages.create(request)] *)
Definition messages_create (client : AnthropicClient) (request : AnthropicRequest)
  : Async AnthropicMessage :=
  λ w, (anthropic_api (providers w) (outbound w) (anthropic_key client) request,
        sent (ToAnthropic (anthropic_key client) request) w).

(** [client.chat.completions.create(request)] *)
Definition completions_create (client : OpenAIClient) (request : OpenAIRequest)
  : Async ChatCompletion :=
  λ w, (openai_api (providers w) (outbound w) (openai_key client) request,
        sent (ToOpenAI (openai_key client) request) w).

(** ** The adapter *)

Record AgentCore := {
  chat : list Message → option string → Async AgentResponse;
  agent_provider : Provider
}.

(** [messages.map((m) => ({ role: m.role, content: m.content }))] *)
Definition to_params (messages : list Message) : list MessageParam :=
  map (λ m, {| param_role := role_tag (role m); param_content := content m |}) messages.

(** The text of the audit record written by a [catch] block:
    [`${name} API error: ${err instanceof Error ? err.message : String(err)}`] *)
Definition api_error (name : string) (err : JsValue) : string :=
  name +:+ " API error: " +:+
  (if instanceof_Error err then error_message err else String_ err).

Definition createAnthropicAgent (config : SecureConfig) (audit : AuditLogger) : AgentCore :=
  let client := {| anthropic_key := apiKey (ai config) |} in
  let model := or_else (model (ai config)) DEFAULT_ANTHROPIC_MODEL in
  {| agent_provider := anthropic;
     chat messages systemPrompt :=
       try_catch
         (response ← messages_create client
                       {| a_model := model;
                          a_max_tokens := 4096;
                          a_system := or_else systemPrompt DEFAULT_SYSTEM_PROMPT;
                          a_messages := to_params messages |};
          let text :=
            join LF
              (map block_text_of
                 (filter (λ block, block_type block = "text") (a_content response))) in
          mret {| text := text;
                  usage := Some {| inputTokens := input_tokens (a_usage response);
                                   outputTokens := output_tokens (a_usage response) |} |})
         (λ err,
            audit_error audit {| error := api_error "Anthropic" err |};;
            throw err) |}.

Definition createOpenAIAgent (config : SecureConfig) (audit : AuditLogger) : AgentCore :=
  let client := {| openai_key := apiKey (ai config) |} in
  let model := or_else (model (ai config)) DEFAULT_OPENAI_MODEL in
  {| agent_provider := openai;
     chat messages systemPrompt :=
       try_catch
         (response ← completions_create client
                       {| o_model := model;
                          o_max_tokens := 4096;
                          o_messages :=
                            {| param_role := "system";
                               param_content := or_else systemPrompt DEFAULT_SYSTEM_PROMPT |}
                            :: to_params messages |};
          let text :=
            or_else (choice ← head (choices response);
                     message ← message choice;
                     msg_content message) "" in
          mret {| text := text;
                  usage :=
                    match o_usage response with
                    | Some u => Some {| inputTokens := prompt_tokens u;
                                        outputTokens := completion_tokens u |}
                    | None => None
                    end |})
         (λ err,
            audit_error audit {| error := api_error "OpenAI" err |};;
            throw err) |}.

Definition createAgent (config : SecureConfig) (audit : AuditLogger) : AgentCore :=
  if decide (provider (ai config) = "anthropic")
  then createAnthropicAgent config audit
  else createOpenAIAgent config audit.

(** ** Vocabulary for stating what [chat] does *)

(** The two provider paths. *)
Definition agent_for (p : Provider) (config : SecureConfig) (audit : AuditLogger)
  : AgentCore :=
  match p with
  | anthropic => createAnthropicAgent config audit
  | openai => createOpenAIAgent config audit
  end.

(** The call each path makes, as a function of what [createAgent] and
    [chat] are given. *)
Definition chat_call (p : Provider) (config : SecureConfig)
  (messages : list Message) (systemPrompt : option string) : Outbound :=
  match p with
  | anthropic =>
      ToAnthropic (apiKey (ai config))
        {| a_model := or_else (model (ai config)) DEFAULT_ANTHROPIC_MODEL;
           a_max_tokens := 4096;
           a_system := or_else systemPrompt DEFAULT_SYSTEM_PROMPT;
           a_messages := to_params messages |}
  | openai =>
      ToOpenAI (apiKey (ai config))
        {| o_model := or_else (model (ai config)) DEFAULT_OPENAI_MODEL;
           o_max_tokens := 4096;
           o_messages :=
             {| param_role := "system";
                param_content := or_else systemPrompt DEFAULT_SYSTEM_PROMPT |}
             :: to_params messages |}
  end.

(** The name a path gives its provider in audit records. *)
Definition provider_name (p : Provider) : string :=
  match p with anthropic => "Anthropic" | openai => "OpenAI" end.

(** The hardcoded default model identifier of each provider. *)
Definition default_model (p : Provider) : string :=
  match p with
  | anthropic => "claude-sonnet-4-20250514"
  | openai => "gpt-4o"
  end.

(** Does the provider fulfil or reject a call, given the calls so far? *)
Definition rejects (net : Network) (so_far : list Outbound) (call : Outbound)
  (err : JsValue) : Prop :=
  match call with
  | ToAnthropic key request => anthropic_api net so_far key request = Rejected err
  | ToOpenAI key request => openai_api net so_far key request = Rejected err
  end.

Definition fulfils (net : Network) (so_far : list Outbound) (call : Outbound) : Prop :=
  match call with
  | ToAnthropic key request =>
      ∃ response, anthropic_api net so_far key request = Fulfilled response
  | ToOpenAI key request =>
      ∃ response, openai_api net so_far key request = Fulfilled response
  end.

(** The response a provider fulfils a call with, in the world [w]. *)
Definition anthropic_reply (w : World) (call : Outbound) : option AnthropicMessage :=
  match call with
  | ToAnthropic key request =>
      match anthropic_api (providers w) (outbound w) key request with
      | Fulfilled response => Some response
      | Rejected _ => None
      end
  | ToOpenAI _ _ => None
  end.

Definition openai_reply (w : World) (call : Outbound) : option ChatCompletion :=
  match call with
  | ToOpenAI key request =>
      match openai_api (providers w) (outbound w) key request with
      | Fulfilled response => Some response
      | Rejected _ => None
      end
  | ToAnthropic _ _ => None
  end.

(** The [model] field of a captured request. *)
Definition req_model (call : Outbound) : string :=
  match call with
  | ToAnthropic _ request => a_model request
  | ToOpenAI _ request => o_model request
  end.

(** The system prompt a captured request carries: the [system] field for
    Anthropic, the content of the leading system-role message for OpenAI. *)
Definition req_system (call : Outbound) : option string :=
  match call with
  | ToAnthropic _ request => Some (a_system request)
  | ToOpenAI _ request =>
      m ← head (o_messages request);
      if decide (param_role m = "system") then Some (param_content m) else None
  end.

(** Is the call addressed to the given provider? *)
Definition addressed_to (call : Outbound) : Provider :=
  match call with ToAnthropic _ _ => anthropic | ToOpenAI _ _ => openai end.

(** The message of a thrown value: its [message] if it is an [Error],
    its stringification otherwise. *)
Definition thrown_text (err : JsValue) : string :=
  match err with
  | JsError message => message
  | _ => String_ err
  end.

(** [sub] occurs in [s]. *)
Definition contains (s sub : string) : Prop :=
  ∃ before after, s = before +:+ sub +:+ after.

(** The texts of the text-typed blocks, in order. *)
Fixpoint texts_of (blocks : list ContentBlock) : list string :=
  match blocks with
  | [] => []
  | TextBlock t :: rest => t :: texts_of rest
  | _ :: rest => texts_of rest
  end.

(** Strings joined by a separator placed between neighbours. *)
Fixpoint joined (separator : string) (texts : list string) : string :=
  match texts with
  | [] => ""
  | [t] => t
  | t :: rest => t +:+ separator +:+ joined separator rest
  end.

(** The content of the first choice's message, where all three exist. *)
Definition first_content (response : ChatCompletion) : option string :=
  match choices response with
  | {| message := Some {| msg_content := Some c |} |} :: _ => Some c
  | _ => None
  end.

(** A stubbed pair of providers, answering every call the same way, and
    a world in which nothing has happened yet. *)
Definition stub_network (a : Outcome AnthropicMessage) (o : Outcome ChatCompletion)
  : Network :=
  {| anthropic_api := λ _ _ _, a; openai_api := λ _ _ _, o |}.

Definition new_world (net : Network) : World :=
  {| providers := net; outbound := []; audit_log := [] |}.

(** The world after a call whose failure was audited. *)
Definition after_failure (call : Outbound) (record : AuditRecord) (w : World) : World :=
  {| providers := providers w;
     outbound := outbound w ++ [call];
     audit_log := audit_log w ++ [AuditError record] |}.

(** ** More vocabulary: captured requests and runs of chats *)

(** The API key a captured call was made with. *)
Definition req_key (call : Outbound) : string :=
  match call with ToAnthropic key _ | ToOpenAI key _ => key end.

(** The [max_tokens] field of a captured request. *)
Definition req_max_tokens (call : Outbound) : Z :=
  match call with
  | ToAnthropic _ request => a_max_tokens request
  | ToOpenAI _ request => o_max_tokens request
  end.

(** The [messages] field of a captured request. *)
Definition req_messages (call : Outbound) : list MessageParam :=
  match call with
  | ToAnthropic _ request => a_messages request
  | ToOpenAI _ request => o_messages request
  end.

(** The value a promise was fulfilled with, if it was. *)
Definition fulfilled_with {A} (o : Outcome A) : option A :=
  match o with Fulfilled a => Some a | Rejected _ => None end.

(** How many of the outcomes are rejections. *)
Fixpoint failures {A} (os : list (Outcome A)) : nat :=
  match os with
  | [] => 0
  | Fulfilled _ :: os' => failures os'
  | Rejected _ :: os' => S (failures os')
  end.

(** A caller awaiting one [chat] after another on the same agent,
    catching each rejection: the outcomes in order and the world left. *)
Fixpoint chats (agent : AgentCore)
  (requests : list (list Message * option string)) (w : World)
  : list (Outcome AgentResponse) * World :=
  match requests with
  | [] => ([], w)
  | (messages, systemPrompt) :: rest =>
      let '(o, w1) := chat agent messages systemPrompt w in
      let '(os, w2) := chats agent rest w1 in
      (o :: os, w2)
  end.

End Agent.

(** * Facts about the conversation store *)

Section StoreFacts.
Import Store.

(** ** Lists: the sliding window *)

Lemma last_n_drop {A} (n : nat) (l : list A) :
  last_n n l = drop (length l - n) l.
Proof.
  unfold last_n. rewrite List.firstn_rev. apply List.rev_involutive.
Qed.

Lemma last_n_length {A} (n : nat) (l : list A) :
  length (last_n n l) = min (length l) n.
Proof. rewrite last_n_drop, length_drop. lia. Qed.

Lemma last_n_snoc {A} (n : nat) (l : list A) (x : A) :
  last_n n (last_n n l ++ [x]) = last_n n (l ++ [x]).
Proof.
  unfold last_n. rewrite !List.rev_app_distr, List.rev_involutive. simpl.
  destruct n as [|k]; [done|]. simpl.
  by rewrite take_take, Nat.min_l by lia.
Qed.

Lemma splice_list_front {A} (k : nat) (l : list A) :
  splice_list 0 k l = drop k l.
Proof. done. Qed.

Lemma trimmed_last_n (l : list Message) : trimmed l = last_n MAX_HISTORY l.
Proof.
  unfold trimmed. rewrite last_n_drop. case_decide.
  - apply splice_list_front.
  - replace (length l - MAX_HISTORY) with 0 by lia. done.
Qed.

(** ** One call at a time: the invariant and the effect on histories *)

Lemma wf_create : wf createConversationStore.
Proof. split; simpl; intros *; rewrite ?lookup_empty; by inversion 1. Qed.

Lemma wf_new_array s : wf s → wf (new_array s).2.
Proof.
  intros [Ha Hb Hi]. split; simpl.
  - intros u r Hu. destruct (decide (next_ref s = r)) as [->|].
    + rewrite lookup_insert_eq. eauto.
    + rewrite lookup_insert_ne by done. eauto.
  - intros r. destruct (decide (next_ref s = r)) as [<-|].
    + lia.
    + rewrite lookup_insert_ne by done. intros ?%Hb. lia.
  - done.
Qed.

Lemma history_of_new_array s v :
  wf s → history_of v (new_array s).2 = history_of v s.
Proof.
  intros [Ha Hb Hi]. unfold history_of. simpl.
  destruct (conversations s !! v) as [r|] eqn:Hv; [simpl|done].
  rewrite lookup_insert_ne; [done|].
  intros <-. specialize (Hb _ (Ha _ _ Hv)). lia.
Qed.

Lemma wf_get s u : wf s → wf (get u s).2.
Proof.
  intros Hs. unfold get, get_or_new.
  destruct (conversations s !! u); [done|]. by apply wf_new_array.
Qed.

Lemma history_of_get s u v :
  wf s → history_of v (get u s).2 = history_of v s.
Proof.
  intros Hs. unfold get, get_or_new.
  destruct (conversations s !! u); [done|]. by apply history_of_new_array.
Qed.

Lemma get_seq_history_of s u : get_seq u s = default [] (history_of u s).
Proof.
  unfold get_seq, get, get_or_new, history_of, deref.
  destruct (conversations s !! u) as [r|]; simpl; [done|].
  by rewrite lookup_insert_eq.
Qed.

(** The array that [add] works on: allocated, holding the id's current
    history, and referenced by no other id. *)
Lemma get_or_new_spec s u :
  wf s →
  let '(r, s1) := get_or_new u s in
  wf s1 ∧ conversations s1 = conversations s ∧
  arrays s1 !! r = Some (default [] (history_of u s)) ∧
  (∀ v, history_of v s1 = history_of v s) ∧
  (∀ v, conversations s !! v = Some r → v = u).
Proof.
  intros Hs. unfold get_or_new.
  destruct (conversations s !! u) as [r|] eqn:Hu.
  - split_and!; try done.
    + unfold history_of. rewrite Hu. simpl.
      destruct (wf_alloc _ Hs _ _ Hu) as [l ->]. done.
    + intros v Hv. eapply wf_inj; eauto.
  - simpl. split_and!.
    + by apply (wf_new_array s).
    + done.
    + unfold history_of. rewrite Hu. simpl. apply lookup_insert_eq.
    + intros v. by apply (history_of_new_array s).
    + intros v Hv. pose proof (wf_below _ Hs _ (wf_alloc _ Hs _ _ Hv)). lia.
Qed.

Lemma deref_push r m s l :
  arrays s !! r = Some l → deref r (push r m s) = l ++ [m].
Proof.
  intros Hr. unfold deref, push. simpl. by rewrite lookup_alter_eq, Hr.
Qed.

(** The arrays after [add], in terms of the arrays after [get_or_new]. *)
Lemma add_unfold s u m :
  wf s →
  ∃ r s1, get_or_new u s = (r, s1) ∧
    conversations (add u m s) = <[u := r]> (conversations s1) ∧
    next_ref (add u m s) = next_ref s1 ∧
    arrays (add u m s) =
      <[r := trimmed (default [] (history_of u s) ++ [m])]> (arrays s1).
Proof.
  intros Hs. pose proof (get_or_new_spec s u Hs) as Hg.
  unfold add. destruct (get_or_new u s) as [r s1].
  destruct Hg as (_ & _ & Hr & _ & _).
  exists r, s1. split; [done|].
  rewrite (deref_push _ _ _ _ Hr). unfold trimmed.
  case_decide; simpl; split_and!; try done.
  all: apply map_eq; intros i; destruct (decide (r = i)) as [<-|].
  all: rewrite ?lookup_alter_eq, ?lookup_alter_ne, ?lookup_insert_eq,
         ?lookup_insert_ne, ?Hr by done; done.
Qed.

Lemma wf_add s u m : wf s → wf (add u m s).
Proof.
  intros Hs. pose proof (get_or_new_spec s u Hs) as Hg.
  destruct (add_unfold s u m Hs) as (r & s1 & Hget & Hc & Hn & Ha).
  rewrite Hget in Hg. destruct Hg as (Hs1 & Hcs & Hr & _ & Hown).
  split.
  - intros v r'. rewrite Hc, Ha. intros Hv.
    destruct (decide (r = r')) as [<-|]; [rewrite lookup_insert_eq; eauto|].
    rewrite lookup_insert_ne by done.
    destruct (decide (u = v)) as [<-|].
    + rewrite lookup_insert_eq in Hv. congruence.
    + rewrite lookup_insert_ne in Hv by done. eapply wf_alloc; eauto.
  - intros r'. rewrite Hn, Ha.
    destruct (decide (r = r')) as [<-|].
    + intros _. apply (wf_below _ Hs1). eauto.
    + rewrite lookup_insert_ne by done. apply (wf_below _ Hs1).
  - intros v w r'. rewrite Hc, Hcs.
    destruct (decide (u = v)) as [<-|], (decide (u = w)) as [<-|];
      rewrite ?lookup_insert_eq, ?lookup_insert_ne by done; try done.
    + intros [= <-] Hw. symmetry. by apply Hown.
    + intros Hv [= <-]. by apply Hown.
    + apply (wf_inj _ Hs).
Qed.

Lemma history_of_add s u v m :
  wf s →
  history_of v (add u m s) =
    if decide (u = v)
    then Some (trimmed (default [] (history_of u s) ++ [m]))
    else history_of v s.
Proof.
  intros Hs. pose proof (get_or_new_spec s u Hs) as Hg.
  destruct (add_unfold s u m Hs) as (r & s1 & Hget & Hc & Hn & Ha).
  rewrite Hget in Hg. destruct Hg as (Hs1 & Hcs & Hr & Hh & Hown).
  unfold history_of at 1. rewrite Hc, Ha.
  case_decide as Huv.
  - subst v. rewrite lookup_insert_eq. simpl. by rewrite lookup_insert_eq.
  - rewrite lookup_insert_ne by done. rewrite <- (Hh v). unfold history_of.
    destruct (conversations s1 !! v) as [r'|] eqn:Hv; [simpl|done].
    rewrite lookup_insert_ne; [done|].
    intros <-. rewrite Hcs in Hv. apply Hown in Hv. done.
Qed.

Lemma wf_clear s u : wf s → wf (clear u s).
Proof.
  intros [Ha Hb Hi]. split; simpl; [|done|].
  - intros v r Hv. apply lookup_delete_Some in Hv as [_ Hv]. eauto.
  - intros v w r Hv Hw.
    apply lookup_delete_Some in Hv as [_ Hv].
    apply lookup_delete_Some in Hw as [_ Hw]. eauto.
Qed.

Lemma history_of_clear s u v :
  history_of v (clear u s) = if decide (u = v) then None else history_of v s.
Proof.
  unfold history_of. simpl. case_decide as Huv.
  - subst. by rewrite lookup_delete_eq.
  - by rewrite lookup_delete_ne.
Qed.

Lemma wf_step s c : wf s → wf (step s c).
Proof.
  destruct c; simpl; auto using wf_get, wf_add, wf_clear.
Qed.

Lemma run_snoc cs c s : run (cs ++ [c]) s = step (run cs s) c.
Proof. unfold run. by rewrite foldl_app. Qed.

Lemma wf_run cs s : wf s → wf (run cs s).
Proof.
  intros Hs. induction cs as [|c cs IH] using rev_ind; [done|].
  rewrite run_snoc. by apply wf_step.
Qed.

Lemma adds_for_app u cs cs' :
  adds_for u (cs ++ cs') = adds_for u cs ++ adds_for u cs'.
Proof.
  induction cs as [|[v|v m|v] cs IH]; simpl; try done.
  case_decide; simpl; by rewrite IH.
Qed.

(** ** Runs of calls *)

(** Starting from a store where [u] has nothing, and as long as [u] is not
    cleared, the array of [u] is the window over the messages added. *)
Lemma run_window u cs s :
  wf s → default [] (history_of u s) = [] → CallClear u ∉ cs →
  default [] (history_of u (run cs s)) = last_n MAX_HISTORY (adds_for u cs).
Proof.
  intros Hs H0. induction cs as [|c cs IH] using rev_ind; intros Hcl.
  - unfold run. simpl. by rewrite H0.
  - apply not_elem_of_app in Hcl as [Hcs Hc].
    specialize (IH Hcs). pose proof (wf_run cs s Hs) as Hw.
    rewrite run_snoc, adds_for_app.
    destruct c as [v|v m|v]; simpl.
    + rewrite history_of_get by done. by rewrite app_nil_r.
    + rewrite history_of_add by done. case_decide as Hv.
      * subst v. simpl. by rewrite IH, trimmed_last_n, last_n_snoc.
      * by rewrite app_nil_r.
    + rewrite history_of_clear. case_decide as Hv.
      * subst v. exfalso. apply Hc. by left.
      * by rewrite app_nil_r.
Qed.

(** Without an [add] for [u], an empty history of [u] stays empty. *)
Lemma run_stays_empty u cs s :
  wf s → default [] (history_of u s) = [] → adds_for u cs = [] →
  default [] (history_of u (run cs s)) = [].
Proof.
  intros Hs H0. induction cs as [|c cs IH] using rev_ind; intros Hadds.
  - done.
  - rewrite adds_for_app in Hadds. apply app_eq_nil in Hadds as [Hcs Hc].
    specialize (IH Hcs). pose proof (wf_run cs s Hs) as Hw.
    rewrite run_snoc. destruct c as [v|v m|v]; simpl.
    + by rewrite history_of_get.
    + rewrite history_of_add by done. simpl in Hc.
      by case_decide.
    + rewrite history_of_clear. by case_decide.
Qed.

(** ** The claims on the store *)

(** C1: for every user id [u] and every run of calls on a new store in
    which [u] is never cleared (the [add] calls for [u], interleaved with
    any calls for other ids and any [get]), the sequence stored for [u]
    after the run is the last 20 messages added for [u], in insertion
    order, and its length is the minimum of the number of those adds and
    20.  The run is arbitrary, so this holds after each [add]. *)
Theorem add_keeps_last_20 (u : Z) (cs : list Call) :
  CallClear u ∉ cs →
  get_seq u (run cs createConversationStore) = last_n 20 (adds_for u cs) ∧
  length (get_seq u (run cs createConversationStore))
    = min (length (adds_for u cs)) 20.
Proof.
  intros Hcl.
  assert (get_seq u (run cs createConversationStore)
          = last_n 20 (adds_for u cs)) as ->.
  { rewrite get_seq_history_of. by apply run_window; [apply wf_create| |]. }
  split; [done|]. apply last_n_length.
Qed.

(** C6: [get] on an id for which no [add] was made returns an empty
    sequence; [clear] removes the id's entry, and [get] after it returns
    an empty sequence however many adds came before the [clear], for as
    long as no new [add] for the id is made. *)
Theorem get_empty_without_add (u : Z) (before after : list Call) :
  adds_for u after = [] →
  get_seq u (run after createConversationStore) = [] ∧
  conversations (clear u (run before createConversationStore)) !! u = None ∧
  get_seq u (run after (clear u (run before createConversationStore))) = [].
Proof.
  intros Hadds. split_and!.
  - rewrite get_seq_history_of.
    by apply run_stays_empty; [apply wf_create| |].
  - simpl. apply lookup_delete_eq.
  - rewrite get_seq_history_of. apply run_stays_empty; [| |done].
    + apply wf_clear, wf_run, wf_create.
    + rewrite history_of_clear. by rewrite decide_True.
Qed.

(** C9: in every store reached through [get], [add] and [clear], for user
    ids [u] and [v] with [u ≠ v], neither [add(u, m)] nor [clear(u)]
    changes the sequence [get(v)] returns. *)
Theorem other_user_unchanged (cs : list Call) (u v : Z) (m : Message) :
  u ≠ v →
  get_seq v (add u m (run cs createConversationStore))
    = get_seq v (run cs createConversationStore) ∧
  get_seq v (clear u (run cs createConversationStore))
    = get_seq v (run cs createConversationStore).
Proof.
  intros Huv. pose proof (wf_run cs _ wf_create) as Hw.
  rewrite !get_seq_history_of, history_of_add, history_of_clear by done.
  by rewrite !decide_False.
Qed.

(** ** The store's claims at concrete runs *)

(** Twenty-two adds for user 7, with calls for user 8 and a [get] in
    between: the oldest two are evicted. *)
Lemma add_keeps_last_20_witness :
  let cs :=
    CallAdd 7 {| role := user; content := "first" |}
    :: CallAdd 8 {| role := user; content := "other" |}
    :: CallGet 7
    :: CallClear 8
    :: replicate 21 (CallAdd 7 {| role := assistant; content := "again" |}) in
  (CallClear 7 ∉ cs) ∧
  get_seq 7 (run cs createConversationStore) = last_n 20 (adds_for 7 cs) ∧
  length (get_seq 7 (run cs createConversationStore))
    = min (length (adds_for 7 cs)) 20.
Proof.
  intros cs. split.
  - apply (bool_decide_unpack _). vm_compute. exact I.
  - apply (add_keeps_last_20 7 cs).
    apply (bool_decide_unpack _). vm_compute. exact I.
Defined.

Example window_slides :
  content <$> get_seq 7
    (run (CallAdd 7 {| role := user; content := "first" |}
          :: replicate 20 (CallAdd 7 {| role := assistant; content := "again" |}))
       createConversationStore)
  = replicate 20 "again".
Proof. by vm_compute. Qed.

(** The invariant is what keeps users apart: in a store where two ids
    share one array, which no run of calls produces, an [add] for one
    shows through the other. *)
Example shared_array_would_leak :
  let s := {| arrays := {[ 0 := [] ]};
              next_ref := 1;
              conversations := {[ 7%Z := 0; 8%Z := 0 ]} |} in
  get_seq 8 (add 7 {| role := user; content := "hello" |} s) ≠ get_seq 8 s.
Proof. by vm_compute. Qed.

Lemma get_empty_without_add_witness :
  let before :=
    [CallAdd 7 {| role := user; content := "hello" |};
     CallAdd 7 {| role := assistant; content := "hi" |}] in
  let after := [CallGet 7; CallAdd 8 {| role := user; content := "other" |}] in
  adds_for 7 after = [] ∧
  get_seq 7 (run after createConversationStore) = [] ∧
  conversations (clear 7 (run before createConversationStore)) !! 7%Z = None ∧
  get_seq 7 (run after (clear 7 (run before createConversationStore))) = [].
Proof.
  intros before after. split.
  - reflexivity.
  - apply (get_empty_without_add 7 before after). reflexivity.
Defined.

Lemma other_user_unchanged_witness :
  let cs :=
    [CallAdd 7 {| role := user; content := "hello" |};
     CallAdd 8 {| role := user; content := "other" |}] in
  let m := {| role := assistant; content := "hi" |} in
  (7 ≠ 8)%Z ∧
  get_seq 8 (add 7 m (run cs createConversationStore))
    = get_seq 8 (run cs createConversationStore) ∧
  get_seq 8 (clear 7 (run cs createConversationStore))
    = get_seq 8 (run cs createConversationStore).
Proof.
  intros cs m. split.
  - lia.
  - apply (other_user_unchanged cs 7 8 m). lia.
Defined.

End StoreFacts.

(** * Facts about the provider adapter *)

Section AgentFacts.
Import Agent.

(** ** JavaScript operators *)

Lemma or_else_empty (v : option string) : or_else v "" = default "" v.
Proof. by destruct v as [[|c s]|]. Qed.

Lemma or_else_nonempty (v : option string) (d : string) :
  d ≠ "" → or_else v d ≠ "".
Proof. by destruct v as [[|c s]|]. Qed.

Lemma append_assoc (a b c : string) : (a +:+ b) +:+ c = a +:+ b +:+ c.
Proof.
  induction a as [|x a IH]; [done|].
  change (String x ((a +:+ b) +:+ c) = String x (a +:+ b +:+ c)).
  by f_equal.
Qed.

(** [join] once the first element has been consumed. *)
Lemma join_from (separator : string) (texts : list string) (k : nat) (R : string) :
  (foldl
     (λ '(k, R) element,
        (S k, (if k is 0 then R else R +:+ separator) +:+ default "" element))
     (S k, R) (map Some texts)).2
  = match texts with
    | [] => R
    | _ :: _ => R +:+ separator +:+ joined separator texts
    end.
Proof.
  revert k R. induction texts as [|t texts IH]; intros k R; [done|].
  cbn [map foldl default]. rewrite IH.
  destruct texts as [|t' texts].
  - simpl. by rewrite append_assoc.
  - change (joined separator (t :: t' :: texts))
      with (t +:+ separator +:+ joined separator (t' :: texts)).
    by rewrite !append_assoc.
Qed.

Lemma join_joined (separator : string) (texts : list string) :
  join separator (map Some texts) = joined separator texts.
Proof.
  destruct texts as [|t texts]; [done|].
  unfold join. cbn [map foldl default]. rewrite join_from.
  by destruct texts.
Qed.

Lemma filter_text_blocks (blocks : list ContentBlock) :
  map block_text_of (filter (λ block, block_type block = "text") blocks)
  = map Some (texts_of blocks).
Proof.
  induction blocks as [|[t|i n inp|th sg] blocks IH]; [done|..].
  - rewrite filter_cons_True by done. simpl. by rewrite IH.
  - rewrite filter_cons_False by done. done.
  - rewrite filter_cons_False by done. done.
Qed.

Lemma append_empty_r (a : string) : a +:+ "" = a.
Proof.
  induction a as [|x a IH]; [done|].
  change (String x (a +:+ "") = String x a). by f_equal.
Qed.

Lemma api_error_text (name : string) (err : JsValue) :
  api_error name err = name +:+ " API error: " +:+ thrown_text err.
Proof. by destruct err. Qed.

Lemma contains_prefix (a b : string) : contains (a +:+ b) a.
Proof. by exists "", b. Qed.

Lemma contains_suffix (a b : string) : contains (a +:+ b) b.
Proof. exists a, "". by rewrite append_empty_r. Qed.

Lemma contains_append_r (a b sub : string) :
  contains b sub → contains (a +:+ b) sub.
Proof.
  intros (x & y & ->). exists (a +:+ x), y. by rewrite append_assoc.
Qed.

Lemma first_content_chain (response : ChatCompletion) :
  (choice ← head (choices response);
   message ← message choice;
   msg_content message) = first_content response.
Proof.
  unfold first_content.
  by destruct (choices response) as [|[[[[c|]]|]] rest].
Qed.

(** ** What one [chat] call does, by how the provider answers *)

Lemma chat_anthropic_fulfilled config audit messages systemPrompt w response :
  anthropic_reply w (chat_call anthropic config messages systemPrompt) = Some response →
  chat (createAnthropicAgent config audit) messages systemPrompt w
  = (Fulfilled
       {| text := join LF
                    (map block_text_of
                       (filter (λ block, block_type block = "text")
                          (a_content response)));
          usage := Some {| inputTokens := input_tokens (a_usage response);
                           outputTokens := output_tokens (a_usage response) |} |},
     sent (chat_call anthropic config messages systemPrompt) w).
Proof.
  unfold anthropic_reply, chat_call. simpl.
  unfold try_catch, mbind, Async_bind, messages_create. simpl.
  by destruct (anthropic_api _ _ _ _) as [r|e]; intros [= ->].
Qed.

Lemma chat_openai_fulfilled config audit messages systemPrompt w response :
  openai_reply w (chat_call openai config messages systemPrompt) = Some response →
  chat (createOpenAIAgent config audit) messages systemPrompt w
  = (Fulfilled
       {| text := or_else (first_content response) "";
          usage :=
            match o_usage response with
            | Some u => Some {| inputTokens := prompt_tokens u;
                                outputTokens := completion_tokens u |}
            | None => None
            end |},
     sent (chat_call openai config messages systemPrompt) w).
Proof.
  unfold openai_reply, chat_call. simpl.
  unfold try_catch, mbind, Async_bind, completions_create. simpl.
  destruct (openai_api _ _ _ _) as [r|e]; intros [= ->].
  unfold mret, Async_ret. by rewrite <- first_content_chain.
Qed.

Lemma chat_rejected p config messages systemPrompt w err :
  rejects (providers w) (outbound w) (chat_call p config messages systemPrompt) err →
  chat (agent_for p config audit_sink) messages systemPrompt w
  = (Rejected err,
     after_failure (chat_call p config messages systemPrompt)
       {| error := api_error (provider_name p) err |} w).
Proof.
  destruct p; simpl; intros Hrej;
    unfold try_catch, mbind, Async_bind, messages_create, completions_create;
    simpl; by rewrite Hrej.
Qed.

Lemma fulfils_or_rejects net so_far call :
  fulfils net so_far call ∨ ∃ err, rejects net so_far call err.
Proof.
  destruct call as [key request|key request]; simpl.
  - destruct (anthropic_api net so_far key request); eauto.
  - destruct (openai_api net so_far key request); eauto.
Qed.

Lemma chat_fulfilled p config audit messages systemPrompt w :
  fulfils (providers w) (outbound w) (chat_call p config messages systemPrompt) →
  ∃ response,
    chat (agent_for p config audit) messages systemPrompt w
    = (Fulfilled response, sent (chat_call p config messages systemPrompt) w).
Proof.
  destruct p; intros [response Hr].
  - eexists. apply chat_anthropic_fulfilled. simpl in *. by rewrite Hr.
  - eexists. apply chat_openai_fulfilled. simpl in *. by rewrite Hr.
Qed.

(** Every [chat] makes exactly one provider call, the one [chat_call]
    describes. *)
Lemma chat_sends p config messages systemPrompt w :
  outbound (chat (agent_for p config audit_sink) messages systemPrompt w).2
  = outbound w ++ [chat_call p config messages systemPrompt].
Proof.
  destruct (fulfils_or_rejects (providers w) (outbound w)
              (chat_call p config messages systemPrompt)) as [Hf|[err Hr]].
  - apply (chat_fulfilled _ _ audit_sink) in Hf as [response ->]. done.
  - by rewrite (chat_rejected _ _ _ _ _ _ Hr).
Qed.

(** ** The claims on the adapter *)

(** C2: on either provider path, if the provider call rejects with [err],
    [chat] makes that one call (no retry, no fallback), the audit sink
    receives exactly one [error] record, whose text is the provider name,
    [" API error: "] and the message of [err] (its [message] if it is an
    [Error], [String(err)] otherwise), and [chat] rejects with [err]
    itself. *)
Theorem provider_failure_audited_and_rethrown
  (p : Provider) (config : SecureConfig) (messages : list Message)
  (systemPrompt : option string) (w : World) (err : JsValue) :
  rejects (providers w) (outbound w) (chat_call p config messages systemPrompt) err →
  ∃ record,
    chat (agent_for p config audit_sink) messages systemPrompt w
    = (Rejected err,
       {| providers := providers w;
          outbound := outbound w ++ [chat_call p config messages systemPrompt];
          audit_log := audit_log w ++ [AuditError record] |}) ∧
    error record = provider_name p +:+ " API error: " +:+ thrown_text err ∧
    contains (error record) (provider_name p) ∧
    contains (error record) (thrown_text err).
Proof.
  intros Hrej. exists {| error := api_error (provider_name p) err |}.
  split; [by apply chat_rejected|]. simpl. rewrite api_error_text.
  split_and!; [done|apply contains_prefix|].
  apply contains_append_r, contains_suffix.
Qed.

(** C3: on the Anthropic path, when the provider fulfils the call with
    [response], [chat] fulfils with a text that is the texts of the
    text-typed blocks of [response], in order, joined by a line feed;
    the other blocks contribute nothing. *)
Theorem anthropic_text_is_joined_text_blocks
  (config : SecureConfig) (audit : AuditLogger) (messages : list Message)
  (systemPrompt : option string) (w : World) (response : AnthropicMessage) :
  anthropic_reply w (chat_call anthropic config messages systemPrompt) = Some response →
  ∃ r w',
    chat (createAnthropicAgent config audit) messages systemPrompt w = (Fulfilled r, w') ∧
    text r = joined LF (texts_of (a_content response)).
Proof.
  intros Hr. rewrite (chat_anthropic_fulfilled _ _ _ _ _ _ Hr).
  do 2 eexists. split; [done|]. simpl.
  by rewrite filter_text_blocks, join_joined.
Qed.

(** C4: on the OpenAI path, when the provider fulfils the call with
    [response], the text [chat] returns is the content of the first
    choice's message, or the empty string if the choice, its message or
    the content is absent; [usage] is the provider's usage object with
    [prompt_tokens] and [completion_tokens] copied, and is absent exactly
    when the provider sent none. *)
Theorem openai_text_and_usage
  (config : SecureConfig) (audit : AuditLogger) (messages : list Message)
  (systemPrompt : option string) (w : World) (response : ChatCompletion) :
  openai_reply w (chat_call openai config messages systemPrompt) = Some response →
  ∃ r w',
    chat (createOpenAIAgent config audit) messages systemPrompt w = (Fulfilled r, w') ∧
    text r = default "" (first_content response) ∧
    usage r = (λ u, {| inputTokens := prompt_tokens u;
                       outputTokens := completion_tokens u |}) <$> o_usage response ∧
    (is_Some (usage r) ↔ is_Some (o_usage response)).
Proof.
  intros Hr. rewrite (chat_openai_fulfilled _ _ _ _ _ _ Hr).
  do 2 eexists. split; [done|]. simpl. rewrite or_else_empty.
  split_and!; [done|by destruct (o_usage response)|].
  destruct (o_usage response); split; intros [x Hx]; by eauto.
Qed.

(** C5: [createAgent] always returns an agent.  Its tag is ["anthropic"],
    it is the Anthropic-path agent and its [chat] calls Anthropic exactly
    when [config.ai.provider] is ["anthropic"]; for every other value,
    recognised or not, its tag is ["openai"], it is the OpenAI-path agent
    and its [chat] calls OpenAI. *)
Theorem createAgent_dispatch
  (config : SecureConfig) (audit : AuditLogger) :
  (provider_tag (agent_provider (createAgent config audit)) = "anthropic"
   ↔ provider (ai config) = "anthropic") ∧
  (provider_tag (agent_provider (createAgent config audit)) = "openai"
   ↔ provider (ai config) ≠ "anthropic") ∧
  createAgent config audit
  = agent_for (agent_provider (createAgent config audit)) config audit ∧
  ∀ messages systemPrompt w,
    ∃ call,
      outbound (chat (createAgent config audit_sink) messages systemPrompt w).2
      = outbound w ++ [call] ∧
      (addressed_to call = anthropic ↔ provider (ai config) = "anthropic") ∧
      (addressed_to call = openai ↔ provider (ai config) ≠ "anthropic").
Proof.
  unfold createAgent. case_decide as Hp; simpl.
  - split_and!; [done|done|done|].
    intros messages systemPrompt w. eexists.
    split; [apply (chat_sends anthropic)|]. done.
  - split_and!; [done|done|done|].
    intros messages systemPrompt w. eexists.
    split; [apply (chat_sends openai)|]. done.
Qed.

(** C7, as amended: on each provider path the [model] field of the
    outbound request is the provider's hardcoded default
    (["claude-sonnet-4-20250514"] for Anthropic, ["gpt-4o"] for OpenAI)
    when [config.ai.model] is not supplied or is the empty string, and is
    the supplied model when that is a non-empty string. *)
Theorem model_default_unless_nonempty
  (p : Provider) (config : SecureConfig) (messages : list Message)
  (systemPrompt : option string) (w : World) :
  ∃ call,
    outbound (chat (agent_for p config audit_sink) messages systemPrompt w).2
    = outbound w ++ [call] ∧
    req_model call =
      match model (ai config) with
      | None => default_model p
      | Some m => if decide (m = "") then default_model p else m
      end.
Proof.
  eexists. split; [apply chat_sends|].
  destruct p; simpl; by destruct (model (ai config)) as [[|c m]|].
Qed.

(** C7, as stated, fails where the supplied model is the empty string:
    the request then carries the default model, not the supplied one. *)
Lemma supplied_empty_model_is_not_used :
  let config :=
    {| ai := {| provider := "openai"; apiKey := "key"; model := Some "" |} |} in
  let w := new_world (stub_network (Rejected JsNull) (Rejected JsNull)) in
  model (ai config) = Some "" ∧
  req_model <$> last (outbound (chat (createAgent config audit_sink) [] None w).2)
  = Some "gpt-4o" ∧
  "gpt-4o" ≠ "".
Proof. by vm_compute. Qed.

(** C8: on either provider path and with any audit logger, when the
    provider fulfils the call, [chat] fulfils and the audit log is as it
    was: nothing is written. *)
Theorem success_writes_no_audit
  (p : Provider) (config : SecureConfig) (audit : AuditLogger)
  (messages : list Message) (systemPrompt : option string) (w : World) :
  fulfils (providers w) (outbound w) (chat_call p config messages systemPrompt) →
  ∃ response w',
    chat (agent_for p config audit) messages systemPrompt w = (Fulfilled response, w') ∧
    audit_log w' = audit_log w.
Proof.
  intros Hf. apply (chat_fulfilled _ _ audit) in Hf as [response ->].
  by do 2 eexists.
Qed.

(** The other direction: where the audit log changed, the provider
    rejected the call. *)
Lemma audit_write_only_on_failure
  (p : Provider) (config : SecureConfig) (messages : list Message)
  (systemPrompt : option string) (w : World) :
  audit_log (chat (agent_for p config audit_sink) messages systemPrompt w).2
    ≠ audit_log w →
  ∃ err,
    rejects (providers w) (outbound w) (chat_call p config messages systemPrompt) err.
Proof.
  intros Hlog.
  destruct (fulfils_or_rejects (providers w) (outbound w)
              (chat_call p config messages systemPrompt)) as [Hf|Hr]; [|done].
  apply (chat_fulfilled _ _ audit_sink) in Hf as [response Hc].
  by rewrite Hc in Hlog.
Qed.

(** C10: on both provider paths a [systemPrompt] that is the empty string
    is treated as an absent one: [chat] does the same, and the request
    carries the default system prompt; and whatever [systemPrompt] is,
    the system prompt sent is never the empty string. *)
Theorem empty_system_prompt_is_absent
  (p : Provider) (config : SecureConfig) (audit : AuditLogger)
  (messages : list Message) (w : World) :
  chat (agent_for p config audit) messages (Some "") w
  = chat (agent_for p config audit) messages None w ∧
  (∃ call,
     outbound (chat (agent_for p config audit_sink) messages (Some "") w).2
     = outbound w ++ [call] ∧
     req_system call = Some DEFAULT_SYSTEM_PROMPT) ∧
  (∀ systemPrompt,
     ∃ call sys,
       outbound (chat (agent_for p config audit_sink) messages systemPrompt w).2
       = outbound w ++ [call] ∧
       req_system call = Some sys ∧ sys ≠ "").
Proof.
  split_and!.
  - by destruct p.
  - eexists. split; [apply chat_sends|]. by destruct p.
  - intros systemPrompt. do 2 eexists. split; [apply chat_sends|].
    split; [by destruct p|].
    destruct p; simpl; by apply or_else_nonempty.
Qed.

(** ** The adapter's claims at concrete stubbed providers *)

(** A rejection with an [Error] whose message is ["rate limited"]. *)
Lemma provider_failure_audited_and_rethrown_witness :
  let config :=
    {| ai := {| provider := "openai"; apiKey := "key"; model := None |} |} in
  let err := JsError "rate limited" in
  let w := new_world (stub_network (Rejected err) (Rejected err)) in
  rejects (providers w) (outbound w) (chat_call openai config [] None) err ∧
  ∃ record,
    chat (agent_for openai config audit_sink) [] None w
    = (Rejected err,
       {| providers := providers w;
          outbound := outbound w ++ [chat_call openai config [] None];
          audit_log := audit_log w ++ [AuditError record] |}) ∧
    error record = provider_name openai +:+ " API error: " +:+ thrown_text err ∧
    contains (error record) (provider_name openai) ∧
    contains (error record) (thrown_text err).
Proof.
  intros config err w. split.
  - reflexivity.
  - apply (provider_failure_audited_and_rethrown openai config [] None w err).
    reflexivity.
Defined.

(** With a logger whose [error] itself throws, the [catch] block does not
    reach its [throw err]: [chat] rejects with what the logger threw. *)
Example throwing_logger_masks_error :
  let config :=
    {| ai := {| provider := "anthropic"; apiKey := "key"; model := None |} |} in
  let err := JsError "rate limited" in
  let w := new_world (stub_network (Rejected err) (Rejected err)) in
  let logger := {| audit_error := λ _, throw (JsError "disk full") |} in
  (chat (createAgent config logger) [] None w).1 = Rejected (JsError "disk full").
Proof. by vm_compute. Qed.

Example rate_limited_audit_text :
  let config :=
    {| ai := {| provider := "anthropic"; apiKey := "key"; model := None |} |} in
  let err := JsError "rate limited" in
  let w := new_world (stub_network (Rejected err) (Rejected err)) in
  audit_log (chat (createAgent config audit_sink) [] None w).2
  = [AuditError {| error := "Anthropic API error: rate limited" |}].
Proof. by vm_compute. Qed.

(** Two text blocks and a tool-use block between them. *)
Lemma anthropic_text_is_joined_text_blocks_witness :
  let config :=
    {| ai := {| provider := "anthropic"; apiKey := "key"; model := None |} |} in
  let response :=
    {| a_content := [TextBlock "Hello"; ToolUseBlock "id" "tool" "{}"; TextBlock "World"];
       a_usage := {| input_tokens := 3; output_tokens := 2 |} |} in
  let w := new_world (stub_network (Fulfilled response) (Rejected JsNull)) in
  anthropic_reply w (chat_call anthropic config [] None) = Some response ∧
  ∃ r w',
    chat (createAnthropicAgent config audit_sink) [] None w = (Fulfilled r, w') ∧
    text r = joined LF (texts_of (a_content response)).
Proof.
  intros config response w. split.
  - reflexivity.
  - apply (anthropic_text_is_joined_text_blocks config audit_sink [] None w response).
    reflexivity.
Defined.

Example hello_world_text :
  let config :=
    {| ai := {| provider := "anthropic"; apiKey := "key"; model := None |} |} in
  let response :=
    {| a_content := [TextBlock "Hello"; ToolUseBlock "id" "tool" "{}"; TextBlock "World"];
       a_usage := {| input_tokens := 3; output_tokens := 2 |} |} in
  let w := new_world (stub_network (Fulfilled response) (Rejected JsNull)) in
  (chat (createAgent config audit_sink) [] None w).1
  = Fulfilled {| text := "Hello" +:+ LF +:+ "World";
                 usage := Some {| inputTokens := 3; outputTokens := 2 |} |}.
Proof. by vm_compute. Qed.

(** A first choice with content ["Hi"] and no usage object. *)
Lemma openai_text_and_usage_witness :
  let config :=
    {| ai := {| provider := "openai"; apiKey := "key"; model := None |} |} in
  let response :=
    {| choices := [{| message := Some {| msg_content := Some "Hi" |} |}];
       o_usage := None |} in
  let w := new_world (stub_network (Rejected JsNull) (Fulfilled response)) in
  openai_reply w (chat_call openai config [] None) = Some response ∧
  ∃ r w',
    chat (createOpenAIAgent config audit_sink) [] None w = (Fulfilled r, w') ∧
    text r = default "" (first_content response) ∧
    usage r = (λ u, {| inputTokens := prompt_tokens u;
                       outputTokens := completion_tokens u |}) <$> o_usage response ∧
    (is_Some (usage r) ↔ is_Some (o_usage response)).
Proof.
  intros config response w. split.
  - reflexivity.
  - apply (openai_text_and_usage config audit_sink [] None w response).
    reflexivity.
Defined.

Example hi_without_usage :
  let config :=
    {| ai := {| provider := "something-else"; apiKey := "key"; model := None |} |} in
  let response :=
    {| choices := [{| message := Some {| msg_content := Some "Hi" |} |}];
       o_usage := None |} in
  let w := new_world (stub_network (Rejected JsNull) (Fulfilled response)) in
  (chat (createAgent config audit_sink) [] None w).1
  = Fulfilled {| text := "Hi"; usage := None |}.
Proof. by vm_compute. Qed.

Lemma success_writes_no_audit_witness :
  let config :=
    {| ai := {| provider := "openai"; apiKey := "key"; model := None |} |} in
  let response :=
    {| choices := [{| message := Some {| msg_content := Some "Hi" |} |}];
       o_usage := Some {| prompt_tokens := 5; completion_tokens := 1 |} |} in
  let w := new_world (stub_network (Rejected JsNull) (Fulfilled response)) in
  let messages := [{| role := user; content := "hello" |}] in
  fulfils (providers w) (outbound w) (chat_call openai config messages None) ∧
  ∃ response w',
    chat (agent_for openai config audit_sink) messages None w = (Fulfilled response, w') ∧
    audit_log w' = audit_log w.
Proof.
  intros config response w messages. split.
  - exists response. reflexivity.
  - apply (success_writes_no_audit openai config audit_sink messages None w).
    exists response. reflexivity.
Defined.

End AgentFacts.

(** * More on the conversation store *)

Section StoreMore.
Import Store.

Lemma adds_since_clear_snoc u cs c :
  adds_since_clear u (cs ++ [c]) = since_clear_step u (adds_since_clear u cs) c.
Proof. unfold adds_since_clear. by rewrite foldl_app. Qed.

Lemma wf_reached cs : wf (run cs createConversationStore).
Proof. apply wf_run, wf_create. Qed.

(** The entry of [u] after any run on a new store: none if nothing was
    added since the last [clear], the window over those adds otherwise. *)
Lemma run_history u cs :
  history_of u (run cs createConversationStore)
  = match adds_since_clear u cs with
    | [] => None
    | _ :: _ => Some (last_n MAX_HISTORY (adds_since_clear u cs))
    end.
Proof.
  induction cs as [|c cs IH] using rev_ind; [done|].
  pose proof (wf_reached cs) as Hw.
  rewrite run_snoc, adds_since_clear_snoc.
  destruct c as [v|v m|v]; simpl.
  - by rewrite history_of_get.
  - rewrite history_of_add by done. case_decide as Hv; [subst v|done].
    rewrite IH, trimmed_last_n.
    destruct (adds_since_clear u cs) as [|x l] eqn:Hl; [done|].
    simpl. by rewrite last_n_snoc.
  - rewrite history_of_clear. by case_decide.
Qed.

Lemma run_get_seq u cs :
  get_seq u (run cs createConversationStore)
  = last_n MAX_HISTORY (adds_since_clear u cs).
Proof.
  rewrite get_seq_history_of, run_history.
  by destruct (adds_since_clear u cs).
Qed.

Lemma get_seq_add s u m :
  wf s → get_seq u (add u m s) = last_n MAX_HISTORY (get_seq u s ++ [m]).
Proof.
  intros Hs. rewrite !get_seq_history_of, history_of_add by done.
  rewrite decide_True by done. simpl. apply trimmed_last_n.
Qed.

Lemma get_seq_add_ne s u v m :
  wf s → u ≠ v → get_seq v (add u m s) = get_seq v s.
Proof.
  intros Hs Huv. rewrite !get_seq_history_of, history_of_add by done.
  by rewrite decide_False.
Qed.

(** X1: whatever calls are made on a new store, clears included, no
    user's sequence is ever longer than 20. *)
Theorem history_never_exceeds_20 (u : Z) (cs : list Call) :
  length (get_seq u (run cs createConversationStore)) ≤ 20.
Proof. rewrite run_get_seq, last_n_length. unfold MAX_HISTORY. lia. Qed.

(** X2: after any run of calls on a new store, the sequence [get] returns
    for [u] is the last 20 of the messages added for [u] since [u] was
    last cleared, in insertion order. *)
Theorem get_is_window_since_clear (u : Z) (cs : list Call) :
  get_seq u (run cs createConversationStore)
  = last_n 20 (adds_since_clear u cs).
Proof. apply run_get_seq. Qed.

(** X3: [get] is read-only.  In every reachable store, a [get] for any
    id, known or not, leaves the map as it is (no entry is created for an
    unknown id) and changes no sequence a later [get] returns. *)
Theorem get_changes_nothing (cs : list Call) (u v : Z) :
  conversations (get u (run cs createConversationStore)).2
  = conversations (run cs createConversationStore) ∧
  get_seq v (get u (run cs createConversationStore)).2
  = get_seq v (run cs createConversationStore).
Proof.
  pose proof (wf_reached cs) as Hw. split.
  - unfold get, get_or_new.
    by destruct (conversations (run cs createConversationStore) !! u).
  - by rewrite !get_seq_history_of, history_of_get.
Qed.

(** X4: [get] hands out the live array.  For an id that has an entry
    (something was added since its last clear), [get] changes nothing in
    the store, and a [push] made through the reference it returned is
    part of what the next [get] returns, with no trimming. *)
Theorem get_returns_live_array (cs : list Call) (u : Z) (m : Message) :
  adds_since_clear u cs ≠ [] →
  (get u (run cs createConversationStore)).2 = run cs createConversationStore ∧
  get_seq u (push (get u (run cs createConversationStore)).1 m
               (run cs createConversationStore))
  = get_seq u (run cs createConversationStore) ++ [m].
Proof.
  intros Hne. pose proof (run_history u cs) as Hh.
  destruct (adds_since_clear u cs) as [|x l]; [done|].
  rewrite (get_seq_history_of (run _ _)), Hh. simpl.
  unfold history_of in Hh. unfold get, get_or_new, get_seq, get, get_or_new.
  destruct (conversations (run cs createConversationStore) !! u)
    as [r|] eqn:Hu; [|done].
  simpl in *. split; [done|]. rewrite Hu.
  unfold deref. simpl. by rewrite lookup_alter_eq, Hh.
Qed.

(** X5: for an id that has no entry, the empty array [get] returns is
    not the store's: a [push] made through it changes no sequence a later
    [get] returns, for that id or any other. *)
Theorem get_of_unknown_is_detached (cs : list Call) (u v : Z) (m : Message) :
  adds_since_clear u cs = [] →
  get_seq v (push (get u (run cs createConversationStore)).1 m
               (get u (run cs createConversationStore)).2)
  = get_seq v (run cs createConversationStore).
Proof.
  intros Hnil. pose proof (run_history u cs) as Hh. rewrite Hnil in Hh.
  pose proof (wf_reached cs) as Hw.
  set (s := run cs createConversationStore) in *.
  assert (conversations s !! u = None) as Hu.
  { unfold history_of in Hh.
    destruct (conversations s !! u) as [r|] eqn:Hu; [|done].
    destruct (wf_alloc _ Hw _ _ Hu) as [l Hl]. simpl in Hh. congruence. }
  rewrite !get_seq_history_of. unfold get, get_or_new. rewrite Hu.
  unfold history_of. simpl.
  destruct (conversations s !! v) as [r|] eqn:Hv; [simpl|done].
  assert (next_ref s ≠ r) as Hr.
  { pose proof (wf_below _ Hw _ (wf_alloc _ Hw _ _ Hv)). lia. }
  by rewrite lookup_alter_ne, lookup_insert_ne.
Qed.

(** X6: in every reachable store, [add(u, m)] makes the sequence of [u]
    the last 20 of the old sequence followed by [m]. *)
Theorem add_appends_then_trims (cs : list Call) (u : Z) (m : Message) :
  get_seq u (add u m (run cs createConversationStore))
  = last_n 20 (get_seq u (run cs createConversationStore) ++ [m]).
Proof. apply get_seq_add, wf_reached. Qed.

(** X7: when the sequence of [u] is full (20 messages), [add(u, m)]
    drops exactly its oldest message and appends [m]. *)
Theorem add_on_full_evicts_oldest (cs : list Call) (u : Z) (m : Message) :
  length (get_seq u (run cs createConversationStore)) = 20 →
  get_seq u (add u m (run cs createConversationStore))
  = drop 1 (get_seq u (run cs createConversationStore)) ++ [m].
Proof.
  intros Hlen. rewrite get_seq_add by apply wf_reached.
  rewrite last_n_drop, length_app, Hlen. simpl.
  by rewrite drop_app_le by lia.
Qed.

(** X8: while the sequence of [u] holds fewer than 20 messages,
    [add(u, m)] only appends: nothing is dropped. *)
Theorem add_below_cap_only_appends (cs : list Call) (u : Z) (m : Message) :
  length (get_seq u (run cs createConversationStore)) < 20 →
  get_seq u (add u m (run cs createConversationStore))
  = get_seq u (run cs createConversationStore) ++ [m].
Proof.
  intros Hlen. rewrite get_seq_add by apply wf_reached.
  rewrite last_n_drop, length_app. simpl.
  replace (_ - MAX_HISTORY) with 0 by (unfold MAX_HISTORY; lia). done.
Qed.

(** X9: in every reachable store, [clear(u)] followed by [add(u, m)]
    leaves exactly [m] for [u], whatever [u] held before. *)
Theorem clear_then_add_starts_over (cs : list Call) (u : Z) (m : Message) :
  get_seq u (add u m (clear u (run cs createConversationStore))) = [m].
Proof.
  rewrite get_seq_add by apply wf_clear, wf_reached.
  rewrite get_seq_history_of, history_of_clear, decide_True by done.
  done.
Qed.

(** X10: adds for different users commute: in every reachable store, for
    [u ≠ v], adding for [u] then for [v] and adding for [v] then for [u]
    leave the same sequence for every id. *)
Theorem adds_for_different_users_commute
  (cs : list Call) (u v x : Z) (m m' : Message) :
  u ≠ v →
  get_seq x (add v m' (add u m (run cs createConversationStore)))
  = get_seq x (add u m (add v m' (run cs createConversationStore))).
Proof.
  intros Huv. pose proof (wf_reached cs) as Hw.
  rewrite !get_seq_history_of.
  rewrite !history_of_add by auto using wf_add.
  repeat case_decide; by subst.
Qed.

(** X11: [clear] on an id that has no entry (nothing added since its
    last clear, or ever) changes no sequence [get] returns. *)
Theorem clear_of_unknown_changes_nothing (cs : list Call) (u v : Z) :
  adds_since_clear u cs = [] →
  get_seq v (clear u (run cs createConversationStore))
  = get_seq v (run cs createConversationStore).
Proof.
  intros Hnil. rewrite !get_seq_history_of, !history_of_clear.
  case_decide as Huv; [subst v|done].
  by rewrite run_history, Hnil.
Qed.

(** ** The properties above at concrete runs *)

Lemma get_returns_live_array_witness :
  let cs := replicate 20 (CallAdd 7 {| role := user; content := "hello" |}) in
  let m := {| role := assistant; content := "pushed" |} in
  adds_since_clear 7 cs ≠ [] ∧
  (get 7 (run cs createConversationStore)).2 = run cs createConversationStore ∧
  get_seq 7 (push (get 7 (run cs createConversationStore)).1 m
               (run cs createConversationStore))
  = get_seq 7 (run cs createConversationStore) ++ [m].
Proof.
  intros cs m. split.
  - vm_compute. discriminate.
  - apply (get_returns_live_array cs 7 m). vm_compute. discriminate.
Defined.

(** Through the live array a caller can leave more than 20 messages. *)
Example push_through_reference_passes_the_cap :
  let s := run (replicate 20 (CallAdd 7 {| role := user; content := "hello" |}))
             createConversationStore in
  length (get_seq 7 (push (get 7 s).1 {| role := user; content := "more" |} s)) = 21.
Proof. by vm_compute. Qed.

Lemma get_of_unknown_is_detached_witness :
  let cs := [CallAdd 7 {| role := user; content := "hello" |}; CallClear 7;
             CallAdd 8 {| role := user; content := "other" |}] in
  let m := {| role := assistant; content := "pushed" |} in
  adds_since_clear 7 cs = [] ∧
  get_seq 8 (push (get 7 (run cs createConversationStore)).1 m
               (get 7 (run cs createConversationStore)).2)
  = get_seq 8 (run cs createConversationStore).
Proof.
  intros cs m. split.
  - reflexivity.
  - apply (get_of_unknown_is_detached cs 7 8 m). reflexivity.
Defined.

Lemma add_on_full_evicts_oldest_witness :
  let cs := CallAdd 7 {| role := user; content := "oldest" |}
            :: replicate 19 (CallAdd 7 {| role := user; content := "hello" |}) in
  let m := {| role := assistant; content := "newest" |} in
  length (get_seq 7 (run cs createConversationStore)) = 20 ∧
  get_seq 7 (add 7 m (run cs createConversationStore))
  = drop 1 (get_seq 7 (run cs createConversationStore)) ++ [m].
Proof.
  intros cs m. split.
  - vm_compute. reflexivity.
  - apply (add_on_full_evicts_oldest cs 7 m). vm_compute. reflexivity.
Defined.

Lemma add_below_cap_only_appends_witness :
  let cs := replicate 19 (CallAdd 7 {| role := user; content := "hello" |}) in
  let m := {| role := assistant; content := "newest" |} in
  length (get_seq 7 (run cs createConversationStore)) < 20 ∧
  get_seq 7 (add 7 m (run cs createConversationStore))
  = get_seq 7 (run cs createConversationStore) ++ [m].
Proof.
  intros cs m. split.
  - vm_compute. lia.
  - apply (add_below_cap_only_appends cs 7 m). vm_compute. lia.
Defined.

Lemma adds_for_different_users_commute_witness :
  let cs := [CallAdd 7 {| role := user; content := "hello" |}] in
  let m := {| role := assistant; content := "hi" |} in
  let m' := {| role := user; content := "other" |} in
  (7 ≠ 8)%Z ∧
  get_seq 7 (add 8 m' (add 7 m (run cs createConversationStore)))
  = get_seq 7 (add 7 m (add 8 m' (run cs createConversationStore))).
Proof.
  intros cs m m'. split.
  - lia.
  - apply (adds_for_different_users_commute cs 7 8 7 m m'). lia.
Defined.

Lemma clear_of_unknown_changes_nothing_witness :
  let cs := [CallAdd 8 {| role := user; content := "other" |}; CallGet 7] in
  adds_since_clear 7 cs = [] ∧
  get_seq 8 (clear 7 (run cs createConversationStore))
  = get_seq 8 (run cs createConversationStore).
Proof.
  intros cs. split.
  - reflexivity.
  - apply (clear_of_unknown_changes_nothing cs 7 8). reflexivity.
Defined.

End StoreMore.

(** * More on the provider adapter *)

Section AgentMore.
Import Agent.

Lemma role_tag_not_system (r : Role) : role_tag r ≠ "system".
Proof. by destruct r. Qed.

Lemma role_tag_inj (r r' : Role) : role_tag r = role_tag r' → r = r'.
Proof. by destruct r, r'. Qed.

Lemma to_params_lookup (messages : list Message) (i : nat) (m : Message) :
  messages !! i = Some m →
  to_params messages !! i
  = Some {| param_role := role_tag (role m); param_content := content m |}.
Proof.
  revert i. induction messages as [|m' messages IH]; intros [|i] Hi; try done.
  - by injection Hi as ->.
  - by apply IH.
Qed.

Lemma to_params_no_system (messages : list Message) :
  filter (λ q, param_role q = "system") (to_params messages) = [].
Proof.
  induction messages as [|m messages IH]; [done|]. simpl.
  rewrite filter_cons_False; [done|]. apply role_tag_not_system.
Qed.

Lemma to_params_length (messages : list Message) :
  length (to_params messages) = length messages.
Proof. apply length_map. Qed.

(** One [chat] with the recording sink: one more call, one more audit
    record exactly when it rejects, the providers as they were. *)
Lemma chat_counts p config messages systemPrompt w :
  let r := chat (agent_for p config audit_sink) messages systemPrompt w in
  providers r.2 = providers w ∧
  length (outbound r.2) = S (length (outbound w)) ∧
  length (audit_log r.2) = length (audit_log w) + failures [r.1].
Proof.
  destruct (fulfils_or_rejects (providers w) (outbound w)
              (chat_call p config messages systemPrompt)) as [Hf|[err Hr]].
  - apply (chat_fulfilled _ _ audit_sink) in Hf as [response ->]. simpl.
    rewrite length_app. simpl. split_and!; [done|lia|lia].
  - rewrite (chat_rejected _ _ _ _ _ _ Hr). simpl.
    rewrite !length_app. simpl. split_and!; [done|lia|lia].
Qed.

(** X12: when the provider call rejects with [err], whatever the audit
    logger is, its [error] is called once, with the record naming the
    provider and the message of [err], in the world right after the
    call; if it returns, [chat] rejects with [err]; if it throws, [chat]
    rejects with what it threw and [err] is lost. *)
Theorem failure_goes_through_the_logger
  (p : Provider) (config : SecureConfig) (audit : AuditLogger)
  (messages : list Message) (systemPrompt : option string)
  (w : World) (err : JsValue) :
  rejects (providers w) (outbound w) (chat_call p config messages systemPrompt) err →
  chat (agent_for p config audit) messages systemPrompt w
  = match audit_error audit
            {| error := provider_name p +:+ " API error: " +:+ thrown_text err |}
            (sent (chat_call p config messages systemPrompt) w) with
    | (Fulfilled _, w') => (Rejected err, w')
    | (Rejected err', w') => (Rejected err', w')
    end.
Proof.
  intros Hrej. rewrite <- api_error_text.
  destruct p; simpl in *;
    unfold try_catch, mbind, Async_bind, messages_create, completions_create;
    simpl; rewrite Hrej; simpl;
    by destruct (audit_error audit _ _) as [[[]|e'] w'].
Qed.

(** X13: the request [chat] sends goes to the agent's provider with the
    configured API key and [max_tokens] 4096, and carries the caller's
    messages in order, each with its role and content unchanged: as the
    whole list on the Anthropic path, after exactly one leading
    system-role message on the OpenAI path.  No other message has the
    system role. *)
Theorem request_carries_messages_in_order
  (p : Provider) (config : SecureConfig) (messages : list Message)
  (systemPrompt : option string) (w : World) :
  ∃ call,
    outbound (chat (agent_for p config audit_sink) messages systemPrompt w).2
    = outbound w ++ [call] ∧
    addressed_to call = p ∧
    req_key call = apiKey (ai config) ∧
    req_max_tokens call = 4096%Z ∧
    let lead := match p with anthropic => 0 | openai => 1 end in
    length (req_messages call) = lead + length messages ∧
    length (filter (λ q, param_role q = "system") (req_messages call)) = lead ∧
    ∀ i m, messages !! i = Some m →
      req_messages call !! (lead + i)
      = Some {| param_role := role_tag (role m); param_content := content m |}.
Proof.
  eexists. split; [apply chat_sends|].
  destruct p; simpl.
  - rewrite to_params_length, to_params_no_system.
    split_and!; try done. apply to_params_lookup.
  - rewrite to_params_length, to_params_no_system.
    split_and!; try done. apply to_params_lookup.
Qed.

(** X14: the messages sent determine the caller's messages: two message
    lists that map to the same request messages are equal. *)
Theorem to_params_injective (ms ms' : list Message) :
  to_params ms = to_params ms' → ms = ms'.
Proof.
  revert ms'. induction ms as [|[r c] ms IH]; intros [|[r' c'] ms'] H; try done.
  simpl in H. injection H as Hr -> Hrest.
  apply role_tag_inj in Hr as ->. f_equal. by apply IH.
Qed.

(** X15: a non-empty [systemPrompt] is sent as it is, on both paths. *)
Theorem nonempty_system_prompt_is_sent
  (p : Provider) (config : SecureConfig) (messages : list Message)
  (prompt : string) (w : World) :
  prompt ≠ "" →
  ∃ call,
    outbound (chat (agent_for p config audit_sink) messages (Some prompt) w).2
    = outbound w ++ [call] ∧
    req_system call = Some prompt.
Proof.
  intros Hne. eexists. split; [apply chat_sends|].
  destruct prompt as [|c prompt]; [done|]. by destruct p.
Qed.

(** X16: on the Anthropic path a fulfilled call always yields a usage,
    with the provider's [input_tokens] and [output_tokens] copied. *)
Theorem anthropic_usage_is_copied
  (config : SecureConfig) (audit : AuditLogger) (messages : list Message)
  (systemPrompt : option string) (w : World) (response : AnthropicMessage) :
  anthropic_reply w (chat_call anthropic config messages systemPrompt) = Some response →
  ∃ r w',
    chat (createAnthropicAgent config audit) messages systemPrompt w = (Fulfilled r, w') ∧
    usage r = Some {| inputTokens := input_tokens (a_usage response);
                      outputTokens := output_tokens (a_usage response) |}.
Proof.
  intros Hr. rewrite (chat_anthropic_fulfilled _ _ _ _ _ _ Hr). by do 2 eexists.
Qed.

(** X17: on the Anthropic path, a fulfilled response with no text-typed
    block (none at all, or only tool-use and the like) makes [chat]
    fulfil with the empty text; it is not an error. *)
Theorem anthropic_no_text_block_gives_empty_text
  (config : SecureConfig) (audit : AuditLogger) (messages : list Message)
  (systemPrompt : option string) (w : World) (response : AnthropicMessage) :
  anthropic_reply w (chat_call anthropic config messages systemPrompt) = Some response →
  Forall (λ block, block_type block ≠ "text") (a_content response) →
  ∃ r w',
    chat (createAnthropicAgent config audit) messages systemPrompt w = (Fulfilled r, w') ∧
    text r = "".
Proof.
  intros Hr Hnone. rewrite (chat_anthropic_fulfilled _ _ _ _ _ _ Hr).
  do 2 eexists. split; [done|]. simpl.
  replace (filter _ (a_content response)) with (@nil ContentBlock); [done|].
  symmetry. induction Hnone as [|b bs Hb _ IH]; [done|].
  by rewrite filter_cons_False.
Qed.

(** X18: on the OpenAI path only the first choice is read: two fulfilled
    responses with the same first choice (or both with none) give the
    same text, whatever their other choices are. *)
Theorem openai_reads_first_choice_only
  (config config' : SecureConfig) (audit audit' : AuditLogger)
  (messages messages' : list Message) (systemPrompt systemPrompt' : option string)
  (w w' : World) (response response' : ChatCompletion) :
  openai_reply w (chat_call openai config messages systemPrompt) = Some response →
  openai_reply w' (chat_call openai config' messages' systemPrompt') = Some response' →
  head (choices response) = head (choices response') →
  text <$> fulfilled_with
             (chat (createOpenAIAgent config audit) messages systemPrompt w).1
  = text <$> fulfilled_with
               (chat (createOpenAIAgent config' audit') messages' systemPrompt' w').1.
Proof.
  intros Hr Hr' Hhead.
  rewrite (chat_openai_fulfilled _ _ _ _ _ _ Hr).
  rewrite (chat_openai_fulfilled _ _ _ _ _ _ Hr'). simpl.
  rewrite <- !first_content_chain. by rewrite Hhead.
Qed.

(** X19: over any run of chats on one agent with the recording sink,
    every chat makes exactly one provider call and the audit log grows by
    exactly one record per rejected chat; the providers are untouched. *)
Theorem chats_one_call_each_one_record_per_failure
  (p : Provider) (config : SecureConfig)
  (requests : list (list Message * option string)) (w : World) :
  let r := chats (agent_for p config audit_sink) requests w in
  length r.1 = length requests ∧
  providers r.2 = providers w ∧
  length (outbound r.2) = length (outbound w) + length requests ∧
  length (audit_log r.2) = length (audit_log w) + failures r.1.
Proof.
  revert w. induction requests as [|[messages systemPrompt] requests IH];
    intros w; simpl; [split_and!; (done || lia)|].
  pose proof (chat_counts p config messages systemPrompt w) as Hc.
  destruct (chat (agent_for p config audit_sink) messages systemPrompt w)
    as [o w1].
  specialize (IH w1).
  destruct (chats (agent_for p config audit_sink) requests w1) as [os w2].
  simpl in *. destruct Hc as (Hp & Ho & Ha), IH as (Hl & Hp' & Ho' & Ha').
  split_and!; [lia|congruence|lia|].
  destruct o; simpl in *; lia.
Qed.

(** ** The properties above at concrete stubbed providers *)

Lemma failure_goes_through_the_logger_witness :
  let config :=
    {| ai := {| provider := "anthropic"; apiKey := "key"; model := None |} |} in
  let err := JsString "boom" in
  let w := new_world (stub_network (Rejected err) (Rejected err)) in
  let logger := {| audit_error := λ _, throw (JsError "disk full") |} in
  rejects (providers w) (outbound w) (chat_call anthropic config [] None) err ∧
  chat (agent_for anthropic config logger) [] None w
  = match audit_error logger
            {| error := provider_name anthropic +:+ " API error: " +:+ thrown_text err |}
            (sent (chat_call anthropic config [] None) w) with
    | (Fulfilled _, w') => (Rejected err, w')
    | (Rejected err', w') => (Rejected err', w')
    end.
Proof.
  intros config err w logger. split.
  - reflexivity.
  - apply (failure_goes_through_the_logger anthropic config logger [] None w err).
    reflexivity.
Defined.

Lemma to_params_injective_witness :
  let ms := [{| role := user; content := "hello" |};
             {| role := assistant; content := "hi" |}] in
  to_params ms = to_params ms ∧ ms = ms.
Proof.
  intros ms. split.
  - reflexivity.
  - apply (to_params_injective ms ms). reflexivity.
Defined.

Lemma nonempty_system_prompt_is_sent_witness :
  let config :=
    {| ai := {| provider := "openai"; apiKey := "key"; model := None |} |} in
  let w := new_world (stub_network (Rejected JsNull) (Rejected JsNull)) in
  "Be brief." ≠ "" ∧
  ∃ call,
    outbound (chat (agent_for openai config audit_sink) [] (Some "Be brief.") w).2
    = outbound w ++ [call] ∧
    req_system call = Some "Be brief.".
Proof.
  intros config w. split.
  - discriminate.
  - apply (nonempty_system_prompt_is_sent openai config [] "Be brief." w).
    discriminate.
Defined.

Lemma anthropic_usage_is_copied_witness :
  let config :=
    {| ai := {| provider := "anthropic"; apiKey := "key"; model := None |} |} in
  let response :=
    {| a_content := [TextBlock "Hello"];
       a_usage := {| input_tokens := 12; output_tokens := 3 |} |} in
  let w := new_world (stub_network (Fulfilled response) (Rejected JsNull)) in
  anthropic_reply w (chat_call anthropic config [] None) = Some response ∧
  ∃ r w',
    chat (createAnthropicAgent config audit_sink) [] None w = (Fulfilled r, w') ∧
    usage r = Some {| inputTokens := input_tokens (a_usage response);
                      outputTokens := output_tokens (a_usage response) |}.
Proof.
  intros config response w. split.
  - reflexivity.
  - apply (anthropic_usage_is_copied config audit_sink [] None w response).
    reflexivity.
Defined.

Lemma anthropic_no_text_block_gives_empty_text_witness :
  let config :=
    {| ai := {| provider := "anthropic"; apiKey := "key"; model := None |} |} in
  let response :=
    {| a_content := [ToolUseBlock "id" "tool" "{}"; ThinkingBlock "hm" "sig"];
       a_usage := {| input_tokens := 12; output_tokens := 3 |} |} in
  let w := new_world (stub_network (Fulfilled response) (Rejected JsNull)) in
  anthropic_reply w (chat_call anthropic config [] None) = Some response ∧
  Forall (λ block, block_type block ≠ "text") (a_content response) ∧
  ∃ r w',
    chat (createAnthropicAgent config audit_sink) [] None w = (Fulfilled r, w') ∧
    text r = "".
Proof.
  intros config response w. split; [|split].
  - reflexivity.
  - apply (bool_decide_unpack _). vm_compute. exact I.
  - apply (anthropic_no_text_block_gives_empty_text
             config audit_sink [] None w response).
    + reflexivity.
    + apply (bool_decide_unpack _). vm_compute. exact I.
Defined.

Lemma openai_reads_first_choice_only_witness :
  let config :=
    {| ai := {| provider := "openai"; apiKey := "key"; model := None |} |} in
  let first := {| message := Some {| msg_content := Some "Hi" |} |} in
  let second := {| message := Some {| msg_content := Some "Hello there" |} |} in
  let response := {| choices := [first; second]; o_usage := None |} in
  let response' := {| choices := [first]; o_usage := None |} in
  let w := new_world (stub_network (Rejected JsNull) (Fulfilled response)) in
  let w' := new_world (stub_network (Rejected JsNull) (Fulfilled response')) in
  openai_reply w (chat_call openai config [] None) = Some response ∧
  openai_reply w' (chat_call openai config [] None) = Some response' ∧
  head (choices response) = head (choices response') ∧
  text <$> fulfilled_with (chat (createOpenAIAgent config audit_sink) [] None w).1
  = text <$> fulfilled_with (chat (createOpenAIAgent config audit_sink) [] None w').1.
Proof.
  intros config first second response response' w w'. split_and!.
  - reflexivity.
  - reflexivity.
  - reflexivity.
  - apply (openai_reads_first_choice_only config config audit_sink audit_sink
             [] [] None None w w' response response'); reflexivity.
Defined.

End AgentMore.
